(** * app4: word-frequency extraction pipeline

    A shallow embedding of [app4.py]: the two regular-expression
    normalisers, the filtering / counting / ranking lines of [main], and
    the control flow of [main] around them (validation, fetch, the
    [try]/[except] block).

    Python values are modelled as follows.
    - [str] is a list of Unicode code points ([Z]); [len] counts code
      points, as Python does.
    - [int] is [Z].
    - the stop word [set] is a [gset str]; the code only tests membership.
    - [collections.Counter] is an association list in insertion order
      (a Python [dict] keeps insertion order, and [most_common] depends
      on it for ties). *)

From Stdlib Require Import ZArith List Lia Sorted.
From stdpp Require Import base decidable list sorting gmap.
From Equations Require Import Equations.

Local Open Scope Z_scope.

(** ** Python strings *)

Definition char := Z.
Definition str := list char.

Definition len {A} (l : list A) : Z := Z.of_nat (length l).

(** Closed interval test on code points. *)
Definition in_range (lo hi c : char) : bool := (lo <=? c) && (c <=? hi).

(** [str.isspace] for one code point; this is also the class [\s] of
    [re] on [str] patterns. *)
Definition isspace (c : char) : bool :=
  in_range 0x09 0x0D c || in_range 0x1C 0x20 c || (c =? 0x85) || (c =? 0xA0)
  || (c =? 0x1680) || in_range 0x2000 0x200A c || in_range 0x2028 0x2029 c
  || (c =? 0x202F) || (c =? 0x205F) || (c =? 0x3000).

(** Line boundaries of [str.splitlines]. *)
Definition is_linebreak (c : char) : bool :=
  in_range 0x0A 0x0D c || in_range 0x1C 0x1E c || (c =? 0x85)
  || in_range 0x2028 0x2029 c.

(** [text.splitlines()]: [cur] is the current line, reversed.  A carriage
    return followed by a line feed is one boundary; no empty line is
    produced after a final boundary. *)
Fixpoint splitlines_from (cur : str) (s : str) : list str :=
  match s with
  | [] => match cur with [] => [] | _ => [rev cur] end
  | c :: rest =>
      if is_linebreak c then
        rev cur ::
          match rest with
          | d :: rest' =>
              if (c =? 0x0D) && (d =? 0x0A) then splitlines_from [] rest'
              else splitlines_from [] rest
          | [] => splitlines_from [] rest
          end
      else splitlines_from (c :: cur) rest
  end.

Definition splitlines (s : str) : list str := splitlines_from [] s.

(** ** The fragment of [re] the program uses *)

(** A matcher gives, for the text starting at the current position, the
    length of the match the pattern finds there, if any. *)
Definition matcher := str → option nat.

(** A character class, once. *)
Definition re_class (p : char → bool) : matcher := λ s,
  match s with
  | c :: _ => if p c then Some 1%nat else None
  | [] => None
  end.

(** The longest prefix of [s] whose characters are all in [p]. *)
Fixpoint span (p : char → bool) (s : str) : nat :=
  match s with
  | c :: rest => if p c then S (span p rest) else 0%nat
  | [] => 0%nat
  end.

(** A character class with [+]: greedy, at least one character.  Nothing
    follows it in the pattern, so the longest run is the match. *)
Definition re_class_plus (p : char → bool) : matcher := λ s,
  match span p s with
  | O => None
  | n => Some n
  end.

(** Alternation [a|b]: the left branch is tried first. *)
Definition re_alt (a b : matcher) : matcher := λ s,
  match a s with
  | Some n => Some n
  | None => b s
  end.

(** [open cls+ close], as in [<[^>]+>] where [close] is exactly the
    complement of the class.  The greedy run stops at the first character
    outside the class; the match succeeds when that character exists
    (it is then [close]) and the run is not empty.  Backtracking to a
    shorter run cannot help: the character after a shorter run is in the
    class, hence not [close]. *)
Definition re_delimited (open : char) (p : char → bool) : matcher := λ s,
  match s with
  | c :: rest =>
      if c =? open then
        match span p rest with
        | O => None
        | n => match drop n rest with
               | _ :: _ => Some (S (S n))
               | [] => None
               end
        end
      else None
  | [] => None
  end.

(** [re.sub(pattern, '', text)]: the leftmost matches, not overlapping,
    are deleted; a character at which the pattern does not match (or
    matches the empty string) is kept. *)
Equations? re_sub_empty (m : matcher) (text : str) : str by wf (length text) lt :=
re_sub_empty m [] := [];
re_sub_empty m (c :: rest) with m (c :: rest) := {
  | Some (S n) => re_sub_empty m (drop n rest)
  | _ => c :: re_sub_empty m rest }.
Proof.
  all: simpl; try lia.
  rewrite length_drop. lia.
Defined.

(** ** Text normaliser *)

(** [re.sub(r'<[^>]+>', '', html)] *)
Definition not_gt (c : char) : bool := negb (c =? 0x3E).

Definition remove_html_tags (html : str) : str :=
  re_sub_empty (re_delimited 0x3C not_gt) html.

(** [[A-Za-z0-9\s+]]: inside a class [+] is a literal plus sign. *)
Definition ascii_alnum_space_plus (c : char) : bool :=
  in_range 0x41 0x5A c || in_range 0x61 0x7A c || in_range 0x30 0x39 c
  || isspace c || (c =? 0x2B).

(** [[一-龥]] and its negation [[^一-龥]]. *)
Definition is_cjk (c : char) : bool := in_range 0x4E00 0x9FA5 c.
Definition not_cjk (c : char) : bool := negb (is_cjk c).

(** [re.sub(r'[A-Za-z0-9\s+]|[^一-龥]+', '', text)] *)
Definition remove_punctuation_and_english (text : str) : str :=
  re_sub_empty (re_alt (re_class ascii_alnum_space_plus) (re_class_plus not_cjk)) text.

(** ** Frequency ranker (the three lines of [main] after segmentation) *)

(** [collections.Counter]: keys in the order of their first insertion. *)
Definition counter := list (str * Z).

(** [[word for word in words if word not in stopwords and len(word) > 1]] *)
Definition meaningful (stopwords : gset str) (words : list str) : list str :=
  filter (λ word, (word ∉ stopwords) ∧ (1 < len word)) words.

(** One step of the counting loop, [mapping[elem] = mapping.get(elem, 0) + 1]:
    an existing key keeps its place, a new key goes to the end. *)
Fixpoint count_element (elem : str) (mapping : counter) : counter :=
  match mapping with
  | [] => [(elem, 0 + 1)]
  | (key, n) :: rest =>
      if decide (key = elem) then (key, n + 1) :: rest
      else (key, n) :: count_element elem rest
  end.

(** [Counter(iterable)] *)
Definition Counter (iterable : list str) : counter :=
  fold_left (λ mapping elem, count_element elem mapping) iterable [].

(** [sorted(items, key=itemgetter(1), reverse=True)]: Python's sort is
    stable, also with [reverse=True]; an item goes in front of the first
    item whose count is not larger than its own. *)
Fixpoint insert_by_count (x : str * Z) (l : list (str * Z)) : list (str * Z) :=
  match l with
  | [] => [x]
  | y :: l' => if y.2 <=? x.2 then x :: l else y :: insert_by_count x l'
  end.

Definition sorted_by_count_reverse (items : list (str * Z)) : list (str * Z) :=
  foldr insert_by_count [] items.

(** [Counter.most_common(n)] is [heapq.nlargest(n, self.items(), key=itemgetter(1))],
    which the library defines as [sorted(items, key=key, reverse=True)[:n]]. *)
Definition most_common (n : nat) (c : counter) : list (str * Z) :=
  take n (sorted_by_count_reverse c).

(** The ranker as a function of its two inputs. *)
Definition ranker (stopwords : gset str) (words : list str) : list (str * Z) :=
  most_common 20 (Counter (meaningful stopwords words)).

(** [l.index(w)]: position of the first occurrence. *)
Fixpoint index (w : str) (l : list str) : option nat :=
  match l with
  | [] => None
  | x :: l' => if decide (x = w) then Some 0%nat else S <$> index w l'
  end.

(** ** The pipeline in [main] *)

Inductive chart := Bar | Pie | Line | Area | Scatter | Box | Cloud.

(** Exceptions: [requests] raises [HTTPError] from [raise_for_status] and
    [ConnectionError] (and its relatives) from [get]; the others come from
    decoding the uploaded file and from the plotting libraries. *)
Inductive exn :=
  | HTTPError (status : Z)
  | ConnectionError
  | UnicodeDecodeError
  | PlotError.

Record response := { status_code : Z; text : str }.

(** What [st.error] is called with. *)
Inductive message :=
  | msg_invalid_url          (* "请输入有效的 URL!" *)
  | msg_missing_stopwords    (* "请上传停用词文件!" *)
  | msg_exception (e : exn). (* f"发生错误:{e}" *)

(** Calls that leave the process: the user interface and the network. *)
Inductive event :=
  | st_title
  | st_error (m : message)
  | requests_get (url : str)
  | st_expander_write (clean_text : str)
  | st_write_top20
  | st_dataframe (freq_df : list (str * Z))
  | st_write_cloud
  | st_pyplot (c : chart).

(** The local variables of [main] that the [try] block assigns; [None] is
    an unbound name. *)
Record locals := {
  html : option str;
  clean_text : option str;
  words : option (list str);
  meaningful_words : option (list str);
  word_counts : option counter;
  most_common_words : option (list (str * Z));
}.

Definition no_locals : locals :=
  {| html := None; clean_text := None; words := None;
     meaningful_words := None; word_counts := None; most_common_words := None |}.

Record state := { log : list event; frame : locals }.

Definition initial : state := {| log := []; frame := no_locals |}.

(** State and exception monad. *)
Definition M (A : Type) : Type := state → (exn + A) * state.

Global Instance M_ret : MRet M := λ A (a : A) s, (inr a, s).
Global Instance M_bind : MBind M := λ A B (k : A → M B) (m : M A) s,
  match m s with
  | (inl e, s') => (inl e, s')
  | (inr a, s') => k a s'
  end.
Definition raise {A} (e : exn) : M A := λ s, (inl e, s).
Definition try_except {A} (body : M A) (handler : exn → M A) : M A := λ s,
  match body s with
  | (inl e, s') => handler e s'
  | (inr a, s') => (inr a, s')
  end.

Definition emit (ev : event) : M unit := λ s,
  (inr tt, {| log := log s ++ [ev]; frame := frame s |}).
Definition assign (f : locals → locals) : M unit := λ s,
  (inr tt, {| log := log s; frame := f (frame s) |}).

Definition set_html (v : str) (l : locals) : locals :=
  {| html := Some v; clean_text := clean_text l; words := words l;
     meaningful_words := meaningful_words l; word_counts := word_counts l;
     most_common_words := most_common_words l |}.
Definition set_clean_text (v : str) (l : locals) : locals :=
  {| html := html l; clean_text := Some v; words := words l;
     meaningful_words := meaningful_words l; word_counts := word_counts l;
     most_common_words := most_common_words l |}.
Definition set_words (v : list str) (l : locals) : locals :=
  {| html := html l; clean_text := clean_text l; words := Some v;
     meaningful_words := meaningful_words l; word_counts := word_counts l;
     most_common_words := most_common_words l |}.
Definition set_meaningful_words (v : list str) (l : locals) : locals :=
  {| html := html l; clean_text := clean_text l; words := words l;
     meaningful_words := Some v; word_counts := word_counts l;
     most_common_words := most_common_words l |}.
Definition set_word_counts (v : counter) (l : locals) : locals :=
  {| html := html l; clean_text := clean_text l; words := words l;
     meaningful_words := meaningful_words l; word_counts := Some v;
     most_common_words := most_common_words l |}.
Definition set_most_common_words (v : list (str * Z)) (l : locals) : locals :=
  {| html := html l; clean_text := clean_text l; words := words l;
     meaningful_words := meaningful_words l; word_counts := word_counts l;
     most_common_words := Some v |}.

(** [response.raise_for_status()]: [requests] raises for a 4xx or a 5xx
    status code and for no other. *)
Definition raise_for_status (r : response) : M unit :=
  if (400 <=? status_code r) && (status_code r <? 600)
  then raise (HTTPError (status_code r))
  else mret tt.

(** The lines of the ranker as statements of [main]. *)
Definition rank_lines (stopwords : gset str) (ws : list str) : M (counter * list (str * Z)) :=
  let mw := meaningful stopwords ws in
  assign (set_meaningful_words mw) ;;
  let wc := Counter mw in
  assign (set_word_counts wc) ;;
  let mc := most_common 20 wc in
  assign (set_most_common_words mc) ;;
  mret (wc, mc).

(** The widgets of the side bar, read when the script runs. *)
Record inputs := {
  stopwords_file : option (list Z);   (* the uploaded bytes, if any *)
  url : str;
  chart_type : chart;
  button : bool;
}.

Section pipeline.

(** The libraries and the world outside the script. *)
Variable validators_url : str → bool.
Variable network : str → exn + response.   (* [requests.get], body decoded as UTF-8 *)
Variable decode_utf8 : list Z → option str.
Variable lcut : str → list str.            (* [jieba.lcut] *)
Variable plot : chart → list (str * Z) → counter → option exn.

Definition fetch_content (u : str) : M str :=
  emit (requests_get u) ;;
  match network u with
  | inl e => raise e
  | inr r => raise_for_status r ;; mret (text r)
  end.

(** The [if]/[elif] chain over [chart_type]: each branch builds a figure
    and hands it to [st.pyplot]; the word cloud branch writes a caption
    first. *)
Definition render (c : chart) (freq_df : list (str * Z)) (wc : counter) : M unit :=
  (match c with Cloud => emit st_write_cloud | _ => mret tt end) ;;
  match plot c freq_df wc with
  | Some e => raise e
  | None => emit (st_pyplot c)
  end.

Definition try_block (inp : inputs) (stopwords : gset str) : M unit :=
  h ← fetch_content (url inp);
  assign (set_html h) ;;
  let ct := remove_html_tags h in
  assign (set_clean_text ct) ;;
  let ct := remove_punctuation_and_english ct in
  assign (set_clean_text ct) ;;
  let ws := lcut ct in
  assign (set_words ws) ;;
  r ← rank_lines stopwords ws;
  let freq_df := r.2 in
  emit (st_expander_write ct) ;;
  emit st_write_top20 ;;
  emit (st_dataframe freq_df) ;;
  render (chart_type inp) freq_df r.1.

Definition main (inp : inputs) : M unit :=
  emit st_title ;;
  if button inp then
    if negb (validators_url (url inp)) then
      emit (st_error msg_invalid_url)
    else
      match stopwords_file inp with
      | None => emit (st_error msg_missing_stopwords)
      | Some data =>
          match decode_utf8 data with
          | None => raise UnicodeDecodeError
          | Some content =>
              let stopwords : gset str := list_to_set (splitlines content) in
              try_except (try_block inp stopwords)
                         (λ e, emit (st_error (msg_exception e)))
          end
      end
  else mret tt.

End pipeline.

(** Character classes the statements below speak about (they are not
    used by the program). *)
Definition is_ascii (c : char) : bool := in_range 0 0x7F c.
Definition is_ascii_letter (c : char) : bool :=
  in_range 0x41 0x5A c || in_range 0x61 0x7A c.
Definition is_ascii_digit (c : char) : bool := in_range 0x30 0x39 c.
(** ASCII punctuation, the General Punctuation block, CJK Symbols and
    Punctuation, and the full-width forms. *)
Definition is_punctuation (c : char) : bool :=
  in_range 0x21 0x2F c || in_range 0x3A 0x40 c || in_range 0x5B 0x60 c
  || in_range 0x7B 0x7E c || in_range 0x2000 0x206F c
  || in_range 0x3000 0x303F c || in_range 0xFF00 0xFFEF c.

(** [sum(word_counts.values())] *)
Definition sum_counts (c : counter) : Z := foldr Z.add 0 (c.*2).

(** In [l] the word [w1] occurs, and first occurs before [w2] does. *)
Definition first_before (l : list str) (w1 w2 : str) : Prop :=
  ∃ i j, index w1 l = Some i ∧ index w2 l = Some j ∧ (i < j)%nat.

(** The order of a stable descending sort: a larger count first, and for
    equal counts the order [B] the items came in. *)
Definition count_then (B : relation (str * Z)) : relation (str * Z) :=
  λ a b, b.2 < a.2 ∨ (a.2 = b.2 ∧ B a b).

(** The keys [ks] of the mapping after the tokens [p] have been read:
    the meaningful words of [p], in the order of their first occurrence. *)
Definition first_seen (stopwords : gset str) (p : list str) (ks : list str) : Prop :=
  (∀ k, k ∈ ks ↔ k ∈ p ∧ (k ∉ stopwords) ∧ (1 < len k))
  ∧ StronglySorted (first_before p) ks.

(** The tokens of the worked example: 苹果, 香蕉, 橙子. *)
Definition apple : str := [0x82F9; 0x679C].
Definition banana : str := [0x9999; 0x8549].
Definition orange : str := [0x6A59; 0x5B50].
Definition fruit_tokens : list str := [apple; banana; apple; orange; apple; banana].

(** Concrete surroundings for running [main]: a server that answers
    every request with the given status and the page 苹果, and the side
    bar with the button pressed. *)
Definition answering (status : Z) : str → exn + response :=
  λ _, inr {| status_code := status; text := apple |}.
Definition pressed (file : option (list Z)) (c : chart) : inputs :=
  {| stopwords_file := file; url := [0x61]; chart_type := c; button := true |}.

(** The pattern of [m] occurs nowhere in [s]: no suffix of [s] starts
    with a match. *)
Fixpoint matches_nowhere (m : matcher) (s : str) : Prop :=
  match s with
  | [] => True
  | _ :: rest => m s = None ∧ matches_nowhere m rest
  end.

(** A tag as [<[^>]+>] sees it: [<], a non-empty body without [>], [>]. *)
Definition tag (body : str) : str := 0x3C :: body ++ [0x3E].
Definition tag_body (body : str) : Prop := body ≠ [] ∧ Forall (λ c, c ≠ 0x3E) body.

(** [l.count(w)] *)
Definition occurrences (w : str) (l : list str) : Z := len (filter (λ x, x = w) l).

(** [c[w]] on a [Counter]: the count of a key, and 0 for a missing key. *)
Fixpoint get (c : counter) (w : str) : Z :=
  match c with
  | [] => 0
  | (key, n) :: rest => if decide (key = w) then n else get rest w
  end.

(** Twenty-one distinct words of two characters. *)
Definition many_words : list str :=
  (λ i, [0x4E00; 0x4E00 + Z.of_nat i]) <$> seq 0 21.

(** The clean text that [main] computes from a page, in two steps. *)
Definition clean (page : str) : str :=
  remove_punctuation_and_english (remove_html_tags page).

(** The locals of [main] once the [try] block has ranked the words. *)
Definition ranked_locals (page : str) (ws : list str) (stopwords : gset str) : locals :=
  {| html := Some page; clean_text := Some (clean page); words := Some ws;
     meaningful_words := Some (meaningful stopwords ws);
     word_counts := Some (Counter (meaningful stopwords ws));
     most_common_words := Some (ranker stopwords ws) |}.

(** What [main] sends to the page and to the network once the fetch has
    succeeded: the clean text, the caption, the table, and then the chart
    or the error message of the plotting library. *)
Definition shown (u page : str) (ws : list str) (stopwords : gset str) (c : chart)
    (plotted : option exn) : list event :=
  [st_title; requests_get u; st_expander_write (clean page); st_write_top20;
   st_dataframe (ranker stopwords ws)]
  ++ (match c with Cloud => [st_write_cloud] | _ => [] end)
  ++ [match plotted with
      | Some e => st_error (msg_exception e)
      | None => st_pyplot c
      end].


(** Kinds of events. *)
Definition is_request (ev : event) : bool :=
  match ev with requests_get _ => true | _ => false end.
Definition is_error (ev : event) : bool :=
  match ev with st_error _ => true | _ => false end.
Definition is_chart (ev : event) : bool :=
  match ev with st_pyplot _ => true | _ => false end.

(** * Properties *)

(** ** Text normaliser *)

Lemma span_le p s : (span p s ≤ length s)%nat.
Proof. induction s as [|c s IH]; simpl; [lia|]. destruct (p c); simpl; lia. Qed.

Lemma filter_drop_span s :
  filter is_cjk (drop (span not_cjk s) s) = filter is_cjk s.
Proof.
  induction s as [|c s IH]; [done|].
  rewrite (filter_cons _ c). cbn [span]. unfold not_cjk at 1.
  destruct (is_cjk c) eqn:E; cbn [negb drop].
  - rewrite (filter_cons _ c), E. by destruct (decide _).
  - rewrite IH. by destruct (decide _).
Qed.

Lemma class1_not_cjk c : ascii_alnum_space_plus c = true → is_cjk c = false.
Proof.
  unfold ascii_alnum_space_plus, is_cjk, isspace, in_range. lia.
Qed.

Lemma re_sub_empty_cons m c rest :
  re_sub_empty m (c :: rest) =
  match m (c :: rest) with
  | Some (S n) => re_sub_empty m (drop n rest)
  | _ => c :: re_sub_empty m rest
  end.
Proof.
  simp re_sub_empty. by destruct (m (c :: rest)) as [[|n]|].
Qed.

(** What the pattern of the character filter matches at a position. *)
Lemma char_pattern_at c rest :
  re_alt (re_class ascii_alnum_space_plus) (re_class_plus not_cjk) (c :: rest) =
  if ascii_alnum_space_plus c then Some 1%nat
  else if is_cjk c then None
  else Some (S (span not_cjk rest)).
Proof.
  unfold re_alt, re_class, re_class_plus. cbn [span]. unfold not_cjk at 1.
  by destruct (ascii_alnum_space_plus c), (is_cjk c).
Qed.

(** The substitution keeps exactly the characters of the range. *)
Lemma remove_punctuation_and_english_filter s :
  remove_punctuation_and_english s = filter is_cjk s.
Proof.
  unfold remove_punctuation_and_english.
  remember (length s) as n eqn:Hn. revert s Hn.
  induction n as [n IH] using lt_wf_ind. intros [|c rest] Hn.
  { by simp re_sub_empty. }
  rewrite re_sub_empty_cons, char_pattern_at, (filter_cons _ c).
  cbn [length] in Hn.
  pose proof (class1_not_cjk c) as Hc.
  pose proof (span_le not_cjk rest) as Hspan.
  destruct (ascii_alnum_space_plus c), (is_cjk c) eqn:E;
    try (discriminate Hc; done);
    destruct (decide _) as [Hd|Hd]; try (by destruct Hd); try done.
  - rewrite drop_0. apply (IH (length rest)); [lia|done].
  - f_equal. apply (IH (length rest)); [lia|done].
  - rewrite <-filter_drop_span.
    apply (IH (length (drop (span not_cjk rest) rest))); [|done].
    rewrite length_drop. lia.
Qed.

(** C3: every character that [remove_punctuation_and_english] leaves in
    its output lies in U+4E00..U+9FA5; it is therefore no ASCII character
    (letter, digit or other), no white space and no punctuation mark. *)
Theorem normalizer_output_cjk_only (text : str) (c : char) :
  c ∈ remove_punctuation_and_english text →
  0x4E00 ≤ c ≤ 0x9FA5
  ∧ is_ascii c = false
  ∧ is_ascii_letter c = false
  ∧ is_ascii_digit c = false
  ∧ is_punctuation c = false
  ∧ isspace c = false.
Proof.
  rewrite remove_punctuation_and_english_filter, list_elem_of_filter.
  intros [Hc _]. revert Hc.
  unfold is_cjk, is_ascii, is_ascii_letter, is_ascii_digit, is_punctuation,
    isspace, in_range.
  intros Hc%Is_true_true. lia.
Qed.

Lemma normalizer_output_cjk_only_witness :
  remove_punctuation_and_english [0x61; 0x4E2D; 0x20; 0x2C; 0x6587; 0x31] = [0x4E2D; 0x6587]
  ∧ 0x4E00 ≤ 0x6587 ≤ 0x9FA5.
Proof.
  split; [reflexivity|].
  apply (normalizer_output_cjk_only [0x61; 0x4E2D; 0x20; 0x2C; 0x6587; 0x31] 0x6587).
  vm_compute. apply list_elem_of_further, list_elem_of_here.
Defined.

(** C9: the character filter is idempotent. *)
Theorem remove_punctuation_and_english_idempotent (s : str) :
  remove_punctuation_and_english (remove_punctuation_and_english s)
  = remove_punctuation_and_english s.
Proof.
  rewrite !remove_punctuation_and_english_filter.
  induction s as [|c s IH]; [done|].
  rewrite (filter_cons _ c). destruct (decide _) as [Hc|Hc]; [|done].
  rewrite (filter_cons _ c). destruct (decide _); [|done]. f_equal. exact IH.
Qed.

(** ** Counting *)

Lemma count_element_keys e m :
  (count_element e m).*1 = if decide (e ∈ m.*1) then m.*1 else m.*1 ++ [e].
Proof.
  induction m as [|[k n] m IH]; [done|]. cbn [count_element].
  destruct (decide (k = e)) as [->|Hne]; csimpl.
  - rewrite decide_True; [done|]. apply list_elem_of_here.
  - rewrite IH. destruct (decide (e ∈ m.*1)) as [Hin|Hin].
    + rewrite decide_True; [done|]. by apply list_elem_of_further.
    + rewrite decide_False; [done|]. intros [?|?]%elem_of_cons; congruence.
Qed.

Lemma count_element_positive e m :
  Forall (λ kv, 1 ≤ kv.2) m → Forall (λ kv, 1 ≤ kv.2) (count_element e m).
Proof.
  induction 1 as [|[k n] m Hk Hm IH]; cbn [count_element].
  - by repeat constructor.
  - destruct (decide (k = e)); constructor; simpl in *; try done; lia.
Qed.

Lemma count_element_sum e m : sum_counts (count_element e m) = sum_counts m + 1.
Proof.
  unfold sum_counts. induction m as [|[k n] m IH]; [done|].
  cbn [count_element]. destruct (decide (k = e)); csimpl in *; lia.
Qed.

(** The counting loop from any intermediate mapping. *)
Lemma counting_loop_positive l m :
  Forall (λ kv, 1 ≤ kv.2) m →
  Forall (λ kv, 1 ≤ kv.2) (fold_left (λ mapping elem, count_element elem mapping) l m).
Proof.
  revert m. induction l as [|e l IH]; intros m Hm; [done|].
  apply IH, count_element_positive, Hm.
Qed.

Lemma counting_loop_sum l m :
  sum_counts (fold_left (λ mapping elem, count_element elem mapping) l m)
  = sum_counts m + len l.
Proof.
  revert m. induction l as [|e l IH]; intros m.
  - unfold len. simpl. lia.
  - cbn [fold_left]. rewrite IH, count_element_sum. unfold len. simpl length. lia.
Qed.

Lemma counting_loop_keys l m w :
  w ∈ (fold_left (λ mapping elem, count_element elem mapping) l m).*1
  ↔ w ∈ m.*1 ∨ w ∈ l.
Proof.
  revert m. induction l as [|e l IH]; intros m.
  - cbn [fold_left]. rewrite elem_of_nil. tauto.
  - cbn [fold_left]. rewrite IH, count_element_keys, elem_of_cons.
    destruct (decide (e ∈ m.*1)) as [Hin|Hin].
    + split; [tauto|]. intros [?|[->|?]]; auto.
    + rewrite elem_of_app, list_elem_of_singleton. tauto.
Qed.

Lemma Counter_keys l w : w ∈ (Counter l).*1 ↔ w ∈ l.
Proof.
  unfold Counter. rewrite counting_loop_keys. cbn. rewrite elem_of_nil. tauto.
Qed.

(** C10: the surviving tokens are a subsequence of the tokens, every
    count of the full mapping is at least 1, and the counts add up to the
    number of surviving tokens. *)
Theorem filter_and_count_sound (stopwords : gset str) (tokens : list str) :
  meaningful stopwords tokens `sublist_of` tokens
  ∧ Forall (λ kv, 1 ≤ kv.2) (Counter (meaningful stopwords tokens))
  ∧ sum_counts (Counter (meaningful stopwords tokens))
    = len (meaningful stopwords tokens).
Proof.
  split; [apply sublist_filter|]. split.
  - apply counting_loop_positive. constructor.
  - unfold Counter. rewrite counting_loop_sum. unfold sum_counts. simpl. lia.
Qed.

(** ** Ranking *)

Lemma insert_by_count_perm x l : insert_by_count x l ≡ₚ x :: l.
Proof.
  induction l as [|y l IH]; [done|]. cbn [insert_by_count].
  destruct (y.2 <=? x.2); [done|]. by rewrite IH, Permutation_swap.
Qed.

Lemma sorted_by_count_reverse_perm l : sorted_by_count_reverse l ≡ₚ l.
Proof.
  induction l as [|x l IH]; [done|]. cbn [sorted_by_count_reverse foldr].
  fold (sorted_by_count_reverse l). by rewrite insert_by_count_perm, IH.
Qed.

Lemma ranker_subset stopwords tokens r :
  r ∈ ranker stopwords tokens → r ∈ Counter (meaningful stopwords tokens).
Proof.
  unfold ranker, most_common. intros Hr.
  rewrite <-(sorted_by_count_reverse_perm (Counter _)).
  eapply elem_of_sublist; [exact Hr|apply sublist_take].
Qed.

(** C2: a word of a frequency record is no stop word and is longer than
    one character. *)
Theorem ranked_words_meaningful (stopwords : gset str) (tokens : list str)
    (word : str) (count : Z) :
  (word, count) ∈ ranker stopwords tokens →
  (word ∉ stopwords) ∧ (1 < len word).
Proof.
  intros Hr%ranker_subset.
  assert (word ∈ (Counter (meaningful stopwords tokens)).*1) as Hk.
  { apply list_elem_of_fmap. by exists (word, count). }
  apply (proj1 (Counter_keys _ _)) in Hk. unfold meaningful in Hk.
  apply list_elem_of_filter in Hk. tauto.
Qed.

Lemma ranked_words_meaningful_witness :
  ranker {[ banana ]} fruit_tokens = [(apple, 3); (orange, 1)]
  ∧ (apple ∉ ({[ banana ]} : gset str)) ∧ (1 < len apple).
Proof.
  assert (ranker {[ banana ]} fruit_tokens = [(apple, 3); (orange, 1)]) as Hrun
    by reflexivity.
  split; [exact Hrun|].
  apply (ranked_words_meaningful {[ banana ]} fruit_tokens apple 3).
  rewrite Hrun. apply list_elem_of_here.
Defined.

(** *** First occurrences *)

Lemma index_Some_lt w l i : index w l = Some i → (i < length l)%nat.
Proof.
  revert i. induction l as [|x l IH]; intros i; [done|]. cbn [index].
  destruct (decide (x = w)); [intros [= <-]; simpl; lia|].
  destruct (index w l) as [j|]; [|done]. intros [= <-].
  specialize (IH j eq_refl). simpl. lia.
Qed.

Lemma index_is_Some w l : w ∈ l → is_Some (index w l).
Proof.
  induction 1 as [|x y l Hin IH]; cbn [index].
  - rewrite decide_True by done. by eexists.
  - destruct (decide (y = x)); [by eexists|]. destruct IH as [j ->]. by eexists.
Qed.

Lemma index_Some_elem w l i : index w l = Some i → w ∈ l.
Proof.
  revert i. induction l as [|x l IH]; intros i; [done|]. cbn [index].
  destruct (decide (x = w)) as [->|]; [intros _; apply list_elem_of_here|].
  destruct (index w l) as [j|]; [|done]. intros _.
  apply list_elem_of_further. by eapply IH.
Qed.

Lemma index_app_l w l t i : index w l = Some i → index w (l ++ t) = Some i.
Proof.
  revert i. induction l as [|x l IH]; intros i; [done|]. cbn [index app].
  destruct (decide (x = w)); [done|].
  destruct (index w l) as [j|]; [|done]. intros [= <-]. by rewrite (IH j).
Qed.

Lemma index_app_new w l : w ∉ l → index w (l ++ [w]) = Some (length l).
Proof.
  induction l as [|x l IH]; intros Hw; cbn [index app].
  - by rewrite decide_True.
  - apply not_elem_of_cons in Hw as [Hne Hw].
    rewrite decide_False by done. by rewrite IH.
Qed.

Lemma first_before_app p t a b : first_before p a b → first_before (p ++ t) a b.
Proof.
  intros (i & j & Hi & Hj & Hlt). exists i, j. eauto using index_app_l.
Qed.

Lemma first_before_new p a b : a ∈ p → b ∉ p → first_before (p ++ [b]) a b.
Proof.
  intros [i Hi]%index_is_Some Hb. exists i, (length p).
  split; [by apply index_app_l|]. split; [by apply index_app_new|].
  by eapply index_Some_lt.
Qed.

Lemma StronglySorted_mono {A} (R1 R2 : relation A) l :
  (∀ a b, R1 a b → R2 a b) → StronglySorted R1 l → StronglySorted R2 l.
Proof.
  intros HR. induction 1 as [|x l Hl IH Hx]; constructor; [done|].
  eapply Forall_impl; eauto.
Qed.

(** A token that the filter drops leaves the keys as they are. *)
Lemma first_seen_skip S p ks x :
  ¬ ((x ∉ S) ∧ (1 < len x)) → first_seen S p ks → first_seen S (p ++ [x]) ks.
Proof.
  intros Hx [Hks Hsort]. split.
  - intros k. rewrite Hks, elem_of_app, list_elem_of_singleton.
    split; [tauto|]. intros [[?| ->] ?]; tauto.
  - eapply StronglySorted_mono; [|exact Hsort]. intros a b. apply first_before_app.
Qed.

(** A token that the filter keeps is a key already, or becomes the last one. *)
Lemma first_seen_keep S p ks x :
  (x ∉ S) ∧ (1 < len x) → first_seen S p ks →
  first_seen S (p ++ [x]) (if decide (x ∈ ks) then ks else ks ++ [x]).
Proof.
  intros Hx [Hks Hsort].
  assert (StronglySorted (first_before (p ++ [x])) ks) as Hsort'.
  { eapply StronglySorted_mono; [|exact Hsort]. intros a b. apply first_before_app. }
  destruct (decide (x ∈ ks)) as [Hin|Hin]; split; try done.
  - intros k. rewrite Hks, elem_of_app, list_elem_of_singleton.
    split; [tauto|]. intros [[?| ->] ?]; [tauto|]. by apply Hks.
  - intros k. rewrite !elem_of_app, !list_elem_of_singleton, Hks.
    split; [intros [?| ->]; tauto|]. intros [[?| ->] ?]; tauto.
  - apply StronglySorted_app_2; [|done|repeat constructor].
    intros a b Ha ->%list_elem_of_singleton.
    apply first_before_new; [by apply Hks|].
    intros Hp. apply Hin, Hks. tauto.
Qed.

(** The counting loop over the filtered tokens keeps [first_seen]. *)
Lemma counting_loop_first_seen S t p m :
  first_seen S p (m.*1) →
  first_seen S (p ++ t)
    ((fold_left (λ mapping elem, count_element elem mapping) (meaningful S t) m).*1).
Proof.
  revert p m. induction t as [|x t IH]; intros p m Hm.
  - by rewrite app_nil_r.
  - replace (p ++ x :: t) with ((p ++ [x]) ++ t) by by rewrite <-app_assoc.
    unfold meaningful. rewrite filter_cons.
    destruct (decide _) as [Hx|Hx].
    + cbn [fold_left]. apply IH. rewrite count_element_keys.
      by apply first_seen_keep.
    + apply IH. by apply first_seen_skip.
Qed.

Lemma Counter_first_seen S tokens :
  first_seen S tokens ((Counter (meaningful S tokens)).*1).
Proof.
  apply (counting_loop_first_seen S tokens [] []). split.
  - intros k. cbn. rewrite !elem_of_nil. tauto.
  - constructor.
Qed.

(** *** Stability of the sort *)

Section stable_sort.
Context (B : relation (str * Z)).

Lemma insert_by_count_sorted x l :
  StronglySorted (count_then B) l → Forall (B x) l →
  StronglySorted (count_then B) (insert_by_count x l).
Proof.
  induction 1 as [|y l Hl IH Hy]; intros Hx; cbn [insert_by_count].
  - repeat constructor.
  - apply Forall_cons in Hx as [Hxy Hxl].
    destruct (Z.leb_spec (y.2) (x.2)) as [Hle|Hlt].
    + constructor; [by constructor|]. constructor.
      * unfold count_then. destruct (decide (y.2 = x.2)); [right|left]; [done|lia].
      * rewrite Forall_forall in Hy, Hxl |- *. intros z Hz.
        specialize (Hy z Hz). specialize (Hxl z Hz). unfold count_then in *.
        destruct (decide (z.2 = x.2)); [right|left]; [done|lia].
    + constructor; [by apply IH|].
      rewrite insert_by_count_perm. constructor; [|done].
      left. lia.
Qed.

Lemma sorted_by_count_reverse_stable l :
  StronglySorted B l → StronglySorted (count_then B) (sorted_by_count_reverse l).
Proof.
  induction 1 as [|x l Hl IH Hx]; [constructor|].
  cbn [sorted_by_count_reverse foldr]. fold (sorted_by_count_reverse l).
  apply insert_by_count_sorted; [done|].
  by rewrite sorted_by_count_reverse_perm.
Qed.
End stable_sort.

Lemma StronglySorted_take {A} (R : relation A) n l :
  StronglySorted R l → StronglySorted R (take n l).
Proof.
  intros H. rewrite <-(take_drop n l) in H. by apply StronglySorted_app_1_l in H.
Qed.

Lemma StronglySorted_adjacent {A} (R : relation A) (l : list A) i a b :
  StronglySorted R l → l !! i = Some a → l !! S i = Some b → R a b.
Proof.
  intros H. revert i. induction H as [|x l Hl IH Hx]; intros i; [done|].
  destruct i as [|i]; cbn.
  - intros [= <-] Hb. rewrite Forall_forall in Hx.
    apply Hx, list_elem_of_lookup. eauto.
  - apply IH.
Qed.

Lemma StronglySorted_fst (R : relation str) (m : counter) :
  StronglySorted R (m.*1) → StronglySorted (λ a b, R a.1 b.1) m.
Proof.
  induction m as [|kv m IH]; [constructor|]. csimpl.
  intros [Hkv Hm]%StronglySorted_cons. constructor; [by apply IH|].
  by rewrite Forall_fmap in Hkv.
Qed.

Lemma ranker_sorted stopwords tokens :
  StronglySorted (count_then (λ a b, first_before tokens a.1 b.1))
    (ranker stopwords tokens).
Proof.
  unfold ranker, most_common.
  apply StronglySorted_take, sorted_by_count_reverse_stable, StronglySorted_fst.
  apply Counter_first_seen.
Qed.

(** C1: the ranked result has at most 20 records, the counts never
    increase along it, and of two adjacent records with the same count
    the first is the one whose word occurs first in the token sequence. *)
Theorem ranked_result_top20_sorted_stable (stopwords : gset str) (tokens : list str) :
  (length (ranker stopwords tokens) ≤ 20)%nat
  ∧ StronglySorted (λ a b, b.2 ≤ a.2) (ranker stopwords tokens)
  ∧ ∀ (i : nat) (r1 r2 : str * Z),
      ranker stopwords tokens !! i = Some r1 →
      ranker stopwords tokens !! S i = Some r2 →
      r2.2 ≤ r1.2 ∧ (r1.2 = r2.2 → first_before tokens r1.1 r2.1).
Proof.
  pose proof (ranker_sorted stopwords tokens) as Hs.
  split; [|split].
  - unfold ranker, most_common. rewrite length_take. lia.
  - eapply StronglySorted_mono; [|exact Hs].
    intros a b [?|[? _]]; lia.
  - intros i r1 r2 H1 H2.
    destruct (StronglySorted_adjacent _ _ _ _ _ Hs H1 H2) as [Hlt|[Heq HB]].
    + split; lia.
    + split; [lia|done].
Qed.

Lemma ranked_result_top20_sorted_stable_witness :
  ranker ∅ [apple; banana; orange] !! 0%nat = Some (apple, 1)
  ∧ ranker ∅ [apple; banana; orange] !! 1%nat = Some (banana, 1)
  ∧ first_before [apple; banana; orange] apple banana.
Proof.
  assert (ranker ∅ [apple; banana; orange] !! 0%nat = Some (apple, 1)) as H0
    by reflexivity.
  assert (ranker ∅ [apple; banana; orange] !! 1%nat = Some (banana, 1)) as H1
    by reflexivity.
  split; [exact H0|]. split; [exact H1|].
  destruct (ranked_result_top20_sorted_stable ∅ [apple; banana; orange])
    as (_ & _ & Hadj).
  exact (proj2 (Hadj 0%nat (apple, 1) (banana, 1) H0 H1) eq_refl).
Defined.

(** C6: the worked example, without stop words and with 苹果 as the only
    stop word. *)
Theorem ranker_fruit_example :
  ranker ∅ fruit_tokens = [(apple, 3); (banana, 2); (orange, 1)]
  ∧ ranker {[ apple ]} fruit_tokens = [(banana, 2); (orange, 1)].
Proof. split; vm_compute; reflexivity. Qed.

(** *** The ranker as statements of [main] *)

Lemma rank_lines_run stopwords ws s :
  rank_lines stopwords ws s =
  (inr (Counter (meaningful stopwords ws), ranker stopwords ws),
   {| log := log s;
      frame := set_most_common_words (ranker stopwords ws)
                 (set_word_counts (Counter (meaningful stopwords ws))
                    (set_meaningful_words (meaningful stopwords ws) (frame s))) |}).
Proof. reflexivity. Qed.

Lemma meaningful_none stopwords tokens :
  Forall (λ t, t ∈ stopwords ∨ len t ≤ 1) tokens → meaningful stopwords tokens = [].
Proof.
  unfold meaningful. induction 1 as [|t l Ht Hl IH]; [done|].
  rewrite filter_cons, decide_False; [done|]. intros [Hs Hlen]. destruct Ht; [done|lia].
Qed.

(** C7: on an empty token sequence, and on one whose tokens are all stop
    words or at most one character long, the ranker returns the empty
    result; the three statements return normally. *)
Theorem ranker_empty_result (stopwords : gset str) (tokens : list str) (s : state) :
  (ranker stopwords [] = []
   ∧ ∃ s', rank_lines stopwords [] s = (inr ([], []), s'))
  ∧ (Forall (λ t, t ∈ stopwords ∨ len t ≤ 1) tokens →
     ranker stopwords tokens = []
     ∧ ∃ s', rank_lines stopwords tokens s = (inr ([], []), s')).
Proof.
  split.
  - split; [reflexivity|]. rewrite rank_lines_run. eauto.
  - intros Hall. rewrite rank_lines_run. unfold ranker.
    rewrite (meaningful_none _ _ Hall). split; [reflexivity|]. cbn. eauto.
Qed.

Lemma ranker_empty_result_witness :
  ranker {[ apple ]} [apple; [0x7684]; apple] = [].
Proof.
  refine (proj1 (proj2 (ranker_empty_result {[ apple ]} [apple; [0x7684]; apple] initial) _)).
  apply Forall_cons_2; [left; by apply elem_of_singleton|].
  apply Forall_cons_2; [right; unfold len; simpl; lia|].
  apply Forall_cons_2; [left; by apply elem_of_singleton|].
  apply Forall_nil_2.
Defined.

(** ** The pipeline *)

Section pipeline_properties.
Variable validators_url : str → bool.
Variable network : str → exn + response.
Variable decode_utf8 : list Z → option str.
Variable lcut : str → list str.
Variable plot : chart → list (str * Z) → counter → option exn.

Lemma fetch_content_raises u e s :
  network u = inl e
  ∨ (∃ r, network u = inr r ∧ 400 ≤ status_code r < 600 ∧ e = HTTPError (status_code r)) →
  fetch_content network u s
  = (inl e, {| log := log s ++ [requests_get u]; frame := frame s |}).
Proof.
  unfold fetch_content, raise_for_status.
  intros [Hn|(r & Hn & Hr & ->)]; cbv [mbind M_bind emit]; rewrite Hn; [done|].
  replace ((400 <=? status_code r) && (status_code r <? 600)) with true by lia.
  done.
Qed.

(** C5: when the button is pressed with a malformed URL, or with a
    well-formed URL and no stop word file, [main] calls [st.error] and
    returns: [requests.get] is not called and no local of the [try]
    block (page, clean text, words, counts, ranking) is assigned. *)
Theorem invalid_input_reported_before_fetch (inp : inputs) :
  button inp = true →
  validators_url (url inp) = false ∨ stopwords_file inp = None →
  let r := main validators_url network decode_utf8 lcut plot inp initial in
  r = (inr tt,
       {| log := [st_title;
                  st_error (if validators_url (url inp)
                            then msg_missing_stopwords else msg_invalid_url)];
          frame := no_locals |})
  ∧ (∀ u, requests_get u ∉ log r.2)
  ∧ frame r.2 = no_locals.
Proof.
  intros Hb Hbad. cbv zeta.
  assert (main validators_url network decode_utf8 lcut plot inp initial
          = (inr tt,
             {| log := [st_title;
                        st_error (if validators_url (url inp)
                                  then msg_missing_stopwords else msg_invalid_url)];
                frame := no_locals |})) as ->.
  { unfold main. rewrite Hb. cbv [mbind M_bind emit initial].
    destruct (validators_url (url inp)); [|done].
    destruct Hbad as [?| ->]; done. }
  split; [done|]. split; [|done].
  intros u. cbn. rewrite !elem_of_cons, elem_of_nil.
  intros [?|[?|[]]]; discriminate.
Qed.

(** C4, as the code has it: when [requests.get] raises, or the status
    code is a 4xx or a 5xx, [fetch_content] raises to [main]; the
    [try] block stops there, so no local is assigned (no normalisation,
    no ranking), and the handler reports the exception with [st.error]. *)
Theorem fetch_failure_aborts_pipeline (inp : inputs) (data : list Z)
    (content : str) (e : exn) :
  button inp = true →
  validators_url (url inp) = true →
  stopwords_file inp = Some data →
  decode_utf8 data = Some content →
  network (url inp) = inl e
  ∨ (∃ r, network (url inp) = inr r ∧ 400 ≤ status_code r < 600
          ∧ e = HTTPError (status_code r)) →
  (∀ s, fetch_content network (url inp) s
        = (inl e, {| log := log s ++ [requests_get (url inp)]; frame := frame s |}))
  ∧ main validators_url network decode_utf8 lcut plot inp initial
    = (inr tt,
       {| log := [st_title; requests_get (url inp); st_error (msg_exception e)];
          frame := no_locals |}).
Proof.
  intros Hb Hu Hf Hd Hfail.
  split; [intros s; by apply fetch_content_raises|].
  unfold main. rewrite Hb, Hu, Hf, Hd. cbn [negb].
  cbv [mbind M_bind try_except try_block].
  unfold emit at 1. cbn [log frame initial].
  rewrite (fetch_content_raises _ e _ Hfail). done.
Qed.
End pipeline_properties.

(** *** Concrete runs *)

Lemma invalid_input_reported_before_fetch_witness :
  main (λ _, false) (answering 200) (λ _, None) (λ _, []) (λ _ _ _, None)
       (pressed None Bar) initial
  = (inr tt, {| log := [st_title; st_error msg_invalid_url]; frame := no_locals |}).
Proof.
  refine (proj1 (invalid_input_reported_before_fetch
                   (λ _, false) (answering 200) (λ _, None) (λ _, [])
                   (λ _ _ _, None) (pressed None Bar) _ _)).
  - reflexivity.
  - left. reflexivity.
Defined.

Lemma fetch_failure_aborts_pipeline_witness :
  main (λ _, true) (answering 404) (λ _, Some []) (λ t, [t]) (λ _ _ _, None)
       (pressed (Some []) Pie) initial
  = (inr tt,
     {| log := [st_title; requests_get [0x61]; st_error (msg_exception (HTTPError 404))];
        frame := no_locals |}).
Proof.
  refine (proj2 (fetch_failure_aborts_pipeline
                   (λ _, true) (answering 404) (λ _, Some []) (λ t, [t])
                   (λ _ _ _, None) (pressed (Some []) Pie) [] [] (HTTPError 404)
                   _ _ _ _ _)); try reflexivity.
  right. exists {| status_code := 404; text := apple |}.
  split; [reflexivity|]. split; [simpl; lia|reflexivity].
Defined.

(** C4 as the specification words it ("non-2xx") does not hold: a 304
    answer is not a 2xx, [raise_for_status] lets it pass, and the
    pipeline goes on to normalise, rank and display. *)
Lemma status_304_is_not_raised :
  ¬ (∀ (network : str → exn + response) (u : str) (r : response) (s : state),
       network u = inr r → ¬ (200 ≤ status_code r < 300) →
       ∃ e s', fetch_content network u s = (inl e, s'))
  ∧ fetch_content (answering 304) [0x61] initial
    = (inr apple, {| log := [requests_get [0x61]]; frame := no_locals |})
  ∧ log (main (λ _, true) (answering 304) (λ _, Some []) (λ t, [t]) (λ _ _ _, None)
           (pressed (Some []) Bar) initial).2
    = [st_title; requests_get [0x61]; st_expander_write apple; st_write_top20;
       st_dataframe [(apple, 1)]; st_pyplot Bar].
Proof.
  split; [|split; reflexivity].
  intros H.
  destruct (H (answering 304) [0x61] {| status_code := 304; text := apple |}
              initial eq_refl) as (e & s' & He); [simpl; lia|].
  discriminate He.
Qed.

(** * Further properties *)

(** ** Substitution by the empty string *)

Lemma re_sub_empty_sublist m s : re_sub_empty m s `sublist_of` s.
Proof.
  remember (length s) as n eqn:Hn. revert s Hn.
  induction n as [n IH] using lt_wf_ind. intros [|c rest] Hn.
  { by simp re_sub_empty. }
  rewrite re_sub_empty_cons. cbn [length] in Hn.
  destruct (m (c :: rest)) as [[|k]|].
  - apply sublist_skip, (IH (length rest)); [lia|done].
  - apply sublist_cons. etrans; [|apply (sublist_drop _ k)].
    apply (IH (length (drop k rest))); [|done]. rewrite length_drop. lia.
  - apply sublist_skip, (IH (length rest)); [lia|done].
Qed.

Lemma re_sub_empty_nowhere m s : matches_nowhere m s → re_sub_empty m s = s.
Proof.
  induction s as [|c s IH]; [by simp re_sub_empty|].
  intros [Hc Hs]. rewrite re_sub_empty_cons, Hc. f_equal. by apply IH.
Qed.

Lemma matches_nowhere_app_r m pre s :
  matches_nowhere m (pre ++ s) → matches_nowhere m s.
Proof. induction pre as [|c pre IH]; [done|]. intros [_ H]. by apply IH. Qed.

Lemma span_app_stop p body c rest :
  Forall (λ x, p x = true) body → p c = false →
  span p (body ++ c :: rest) = length body.
Proof.
  intros Hb Hc. induction Hb as [|x body Hx Hb IH]; cbn [span app length].
  - by rewrite Hc.
  - by rewrite Hx, IH.
Qed.

Lemma span_all p s : Forall (λ x, p x = true) s → span p s = length s.
Proof.
  induction 1 as [|x s Hx Hs IH]; [done|]. cbn [span length]. by rewrite Hx, IH.
Qed.

Lemma span_length_all p s : span p s = length s → Forall (λ x, p x = true) s.
Proof.
  induction s as [|x s IH]; [constructor|]. cbn [span length].
  destruct (p x) eqn:E; [|done]. intros [= H]. constructor; auto.
Qed.

Lemma not_gt_true c : not_gt c = true ↔ c ≠ 0x3E.
Proof. unfold not_gt. destruct (Z.eqb_spec c 0x3E); simpl; split; congruence. Qed.

(** ** [remove_html_tags] *)

(** The pattern matches a whole tag, and nothing longer. *)
Lemma tag_pattern_at_tag body rest :
  tag_body body →
  re_delimited 0x3C not_gt (tag body ++ rest) = Some (S (S (length body))).
Proof.
  intros [Hne Hb]. unfold tag, re_delimited. cbn [app]. rewrite <-app_assoc.
  cbn [app]. rewrite Z.eqb_refl.
  assert (Forall (λ x, not_gt x = true) body) as Hb'.
  { eapply Forall_impl; [exact Hb|]. intros c. apply not_gt_true. }
  rewrite (span_app_stop not_gt body 0x3E rest Hb' eq_refl).
  destruct body as [|b body]; [done|]. cbn [length].
  change (S (length body)) with (length (b :: body)).
  by rewrite drop_app_length.
Qed.

(** No match at a character other than [<]. *)
Lemma tag_pattern_at_other c rest : c ≠ 0x3C → re_delimited 0x3C not_gt (c :: rest) = None.
Proof. intros Hc. unfold re_delimited. by destruct (Z.eqb_spec c 0x3C). Qed.

(** No match where no [>] follows. *)
Lemma tag_pattern_unclosed c rest :
  Forall (λ x, not_gt x = true) rest → re_delimited 0x3C not_gt (c :: rest) = None.
Proof.
  intros Hr. unfold re_delimited. destruct (c =? 0x3C); [|done].
  rewrite (span_all _ _ Hr). destruct rest as [|d rest]; [done|].
  cbn [length]. change (S (length rest)) with (length (d :: rest)).
  by rewrite drop_all.
Qed.

Lemma tag_pattern_none_cases rest :
  re_delimited 0x3C not_gt (0x3C :: rest) = None →
  rest = [] ∨ (∃ rest', rest = 0x3E :: rest') ∨ Forall (λ x, not_gt x = true) rest.
Proof.
  unfold re_delimited. rewrite Z.eqb_refl. intros H.
  destruct rest as [|d rest]; [by left|]. right.
  destruct (Z.eqb_spec d 0x3E) as [->|Hd]; [left; eauto|]. right.
  apply span_length_all.
  pose proof (span_le not_gt (d :: rest)) as Hle.
  destruct (span not_gt (d :: rest)) as [|k] eqn:Hk.
  { cbn [span] in Hk. apply not_gt_true in Hd. rewrite Hd in Hk. done. }
  cbn beta iota in H.
  destruct (drop _ _) eqn:Hdrop in H; [|discriminate H].
  apply (f_equal length) in Hdrop. rewrite length_drop in Hdrop. simpl in *. lia.
Qed.

Lemma remove_html_tags_nowhere html :
  matches_nowhere (re_delimited 0x3C not_gt) (remove_html_tags html).
Proof.
  unfold remove_html_tags.
  remember (length html) as n eqn:Hn. revert html Hn.
  induction n as [n IH] using lt_wf_ind. intros [|c rest] Hn.
  { by simp re_sub_empty. }
  rewrite re_sub_empty_cons. cbn [length] in Hn.
  destruct (re_delimited 0x3C not_gt (c :: rest)) as [[|k]|] eqn:Hm.
  - unfold re_delimited in Hm. destruct (c =? 0x3C); [|done].
    destruct (span not_gt rest); [done|]. by destruct (drop _ rest).
  - apply (IH (length (drop k rest))); [|done]. rewrite length_drop. lia.
  - split; [|apply (IH (length rest)); [lia|done]].
    destruct (decide (c = 0x3C)) as [->|Hc]; [|by apply tag_pattern_at_other].
    destruct (tag_pattern_none_cases rest Hm) as [->|[[rest' ->]|Hall]].
    + by simp re_sub_empty.
    + rewrite re_sub_empty_cons, (tag_pattern_at_other 0x3E) by lia.
      unfold re_delimited. by rewrite Z.eqb_refl.
    + apply tag_pattern_unclosed.
      rewrite Forall_forall in Hall |- *. intros x Hx. apply Hall.
      eapply elem_of_sublist; [exact Hx|apply re_sub_empty_sublist].
Qed.

Lemma remove_html_tags_copy_prefix pre s :
  Forall (λ c, c ≠ 0x3C) pre →
  remove_html_tags (pre ++ s) = pre ++ remove_html_tags s.
Proof.
  unfold remove_html_tags. induction 1 as [|c pre Hc Hpre IH]; [done|].
  cbn [app]. rewrite re_sub_empty_cons, tag_pattern_at_other by done.
  by rewrite IH.
Qed.

Lemma remove_html_tags_drop_tag body rest :
  tag_body body → remove_html_tags (tag body ++ rest) = remove_html_tags rest.
Proof.
  intros Hb. unfold remove_html_tags.
  pose proof (tag_pattern_at_tag body rest Hb) as Hm.
  unfold tag in *. cbn [app] in *. rewrite re_sub_empty_cons, Hm.
  rewrite <-app_assoc. cbn [app].
  change (body ++ 0x3E :: rest) with (body ++ [0x3E] ++ rest).
  rewrite app_assoc.
  replace (S (length body)) with (length (body ++ [0x3E]))
    by (rewrite length_app; simpl; lia).
  by rewrite drop_app_length.
Qed.

(** X1: substitution by the empty string only deletes: the text without
    tags is a subsequence of the page, and so is the clean text that
    [main] passes to the segmenter. *)
Theorem normalised_text_is_subsequence (html : str) :
  remove_html_tags html `sublist_of` html
  ∧ remove_punctuation_and_english (remove_html_tags html) `sublist_of` html.
Proof.
  assert (remove_html_tags html `sublist_of` html) as H
    by apply re_sub_empty_sublist.
  split; [exact H|]. etrans; [apply re_sub_empty_sublist|exact H].
Qed.

(** X2: no tag is left in the output of [remove_html_tags]: the output
    has no substring made of [<], a non-empty run without [>], and [>]. *)
Theorem remove_html_tags_leaves_no_tag (html pre body post : str) :
  tag_body body →
  remove_html_tags html ≠ pre ++ tag body ++ post.
Proof.
  intros Hb Heq.
  pose proof (remove_html_tags_nowhere html) as Hno. rewrite Heq in Hno.
  apply matches_nowhere_app_r in Hno.
  pose proof (tag_pattern_at_tag body post Hb) as Hm.
  unfold tag in *. cbn [app] in *. destruct Hno as [Hno _]. congruence.
Qed.

Lemma remove_html_tags_leaves_no_tag_witness :
  remove_html_tags [0x3C; 0x3C; 0x62; 0x3E; 0x4E2D] ≠ [0x3C] ++ tag [0x62] ++ [0x4E2D].
Proof.
  apply (remove_html_tags_leaves_no_tag _ [0x3C] [0x62] [0x4E2D]).
  split; [discriminate|]. apply Forall_cons_2; [lia|apply Forall_nil_2].
Defined.

(** X3: [remove_html_tags] is idempotent. *)
Theorem remove_html_tags_idempotent (html : str) :
  remove_html_tags (remove_html_tags html) = remove_html_tags html.
Proof.
  unfold remove_html_tags at 1. apply re_sub_empty_nowhere, remove_html_tags_nowhere.
Qed.

(** X4: text up to the first [<] is copied, and a tag that starts there
    is deleted up to and including the first [>] after it, whatever the
    body holds besides (other [<], quotes, line breaks). *)
Theorem remove_html_tags_strips_first_tag (pre body rest : str) :
  Forall (λ c, c ≠ 0x3C) pre →
  tag_body body →
  remove_html_tags (pre ++ tag body ++ rest) = pre ++ remove_html_tags rest.
Proof.
  intros Hpre Hb. by rewrite remove_html_tags_copy_prefix, remove_html_tags_drop_tag.
Qed.

Lemma remove_html_tags_strips_first_tag_witness :
  remove_html_tags ([0x4E2D] ++ tag [0x61; 0x3C; 0x0A] ++ [0x6587; 0x3E])
  = [0x4E2D] ++ remove_html_tags [0x6587; 0x3E].
Proof.
  apply remove_html_tags_strips_first_tag.
  - apply Forall_cons_2; [lia|apply Forall_nil_2].
  - split; [discriminate|]. repeat (apply Forall_cons_2; [lia|]). apply Forall_nil_2.
Defined.

(** X5: a text without [<], and likewise a text without [>], has no tag
    and is returned unchanged. *)
Theorem remove_html_tags_plain_text (s : str) :
  Forall (λ c, c ≠ 0x3C) s ∨ Forall (λ c, c ≠ 0x3E) s →
  remove_html_tags s = s.
Proof.
  intros [H|H].
  - rewrite <-(app_nil_r s) at 1. rewrite remove_html_tags_copy_prefix by done.
    unfold remove_html_tags. simp re_sub_empty. by rewrite app_nil_r.
  - apply re_sub_empty_nowhere. induction H as [|c s Hc Hs IH]; [done|].
    split; [|done]. apply tag_pattern_unclosed.
    eapply Forall_impl; [exact Hs|]. intros x. apply not_gt_true.
Qed.

Lemma remove_html_tags_plain_text_witness :
  remove_html_tags [0x3C; 0x61; 0x4E2D] = [0x3C; 0x61; 0x4E2D].
Proof.
  apply remove_html_tags_plain_text. right.
  repeat (apply Forall_cons_2; [lia|]). apply Forall_nil_2.
Defined.

(** X6: after a text without [<], an empty pair of angle brackets is no
    tag for the pattern (its class needs one character at least): the
    pair stays in the text and the scan goes on behind it.  With one more
    [<] right in front, the three characters are one tag, with [<] as
    its body, and are deleted. *)
Theorem remove_html_tags_keeps_empty_brackets (pre rest : str) :
  Forall (λ c, c ≠ 0x3C) pre →
  remove_html_tags (pre ++ 0x3C :: 0x3E :: rest)
  = pre ++ 0x3C :: 0x3E :: remove_html_tags rest
  ∧ remove_html_tags (pre ++ 0x3C :: 0x3C :: 0x3E :: rest)
    = pre ++ remove_html_tags rest.
Proof.
  intros Hpre. split.
  - rewrite remove_html_tags_copy_prefix by done. f_equal.
    unfold remove_html_tags. rewrite re_sub_empty_cons.
    replace (re_delimited 0x3C not_gt (0x3C :: 0x3E :: rest)) with (@None nat)
      by reflexivity.
    f_equal. rewrite re_sub_empty_cons, (tag_pattern_at_other 0x3E) by lia. done.
  - rewrite remove_html_tags_copy_prefix by done. f_equal.
    apply (remove_html_tags_drop_tag [0x3C] rest).
    split; [discriminate|]. apply Forall_cons_2; [lia|apply Forall_nil_2].
Qed.

Lemma remove_html_tags_keeps_empty_brackets_witness :
  remove_html_tags ([0x4E2D; 0x3E] ++ 0x3C :: 0x3E :: [0x3C; 0x62; 0x3E; 0x6587])
  = [0x4E2D; 0x3E] ++ 0x3C :: 0x3E :: remove_html_tags [0x3C; 0x62; 0x3E; 0x6587].
Proof.
  apply (remove_html_tags_keeps_empty_brackets [0x4E2D; 0x3E]
           [0x3C; 0x62; 0x3E; 0x6587]).
  repeat (apply Forall_cons_2; [lia|]). apply Forall_nil_2.
Defined.

(** ** [remove_punctuation_and_english], further *)

(** X7: the character filter returns exactly the characters of its input
    that lie in U+4E00..U+9FA5, in their order and with their
    multiplicity: no such character is lost. *)
Theorem character_filter_keeps_every_cjk (text : str) :
  remove_punctuation_and_english text
  = filter (λ c, 0x4E00 ≤ c ≤ 0x9FA5) text.
Proof.
  rewrite remove_punctuation_and_english_filter.
  apply list_filter_iff. intros c. unfold is_cjk, in_range.
  rewrite Is_true_true. lia.
Qed.

(** X8: the first alternative of the pattern is redundant: substituting
    [[^一-龥]+] alone gives the same text. *)
Theorem character_filter_first_alternative_redundant (text : str) :
  re_sub_empty (re_class_plus not_cjk) text = remove_punctuation_and_english text.
Proof.
  rewrite remove_punctuation_and_english_filter.
  remember (length text) as n eqn:Hn. revert text Hn.
  induction n as [n IH] using lt_wf_ind. intros [|c rest] Hn.
  { by simp re_sub_empty. }
  rewrite re_sub_empty_cons, (filter_cons _ c). cbn [length] in Hn.
  unfold re_class_plus. cbn [span]. unfold not_cjk at 1.
  pose proof (span_le not_cjk rest) as Hspan.
  destruct (is_cjk c) eqn:E; cbn [negb];
    destruct (decide _) as [Hd|Hd]; try (by destruct Hd); try done.
  - f_equal. apply (IH (length rest)); [lia|done].
  - rewrite <-filter_drop_span.
    apply (IH (length (drop (span not_cjk rest) rest))); [|done].
    rewrite length_drop. lia.
Qed.

(** X9: the character filter works character by character: it commutes
    with concatenation, although a match of the pattern may run across
    the point where the two texts meet. *)
Theorem character_filter_app (s1 s2 : str) :
  remove_punctuation_and_english (s1 ++ s2)
  = remove_punctuation_and_english s1 ++ remove_punctuation_and_english s2.
Proof. rewrite !remove_punctuation_and_english_filter. apply filter_app. Qed.

(** ** Counting and ranking, further *)

Lemma get_count_element e m w :
  get (count_element e m) w = get m w + (if decide (e = w) then 1 else 0).
Proof.
  induction m as [|[k n] m IH]; cbn [count_element get].
  - destruct (decide (e = w)); lia.
  - destruct (decide (k = e)) as [->|Hke]; cbn [get].
    + destruct (decide (e = w)); lia.
    + destruct (decide (k = w)) as [->|Hkw]; [|done].
      rewrite decide_False by congruence. lia.
Qed.

Lemma occurrences_cons e l w :
  occurrences w (e :: l) = (if decide (e = w) then 1 else 0) + occurrences w l.
Proof.
  unfold occurrences, len. rewrite filter_cons.
  destruct (decide (e = w)); cbn [length]; lia.
Qed.

Lemma get_counting_loop l m w :
  get (fold_left (λ mapping elem, count_element elem mapping) l m) w
  = get m w + occurrences w l.
Proof.
  revert m. induction l as [|e l IH]; intros m; cbn [fold_left].
  - unfold occurrences, len. simpl. lia.
  - rewrite IH, get_count_element, occurrences_cons. lia.
Qed.

Lemma counting_loop_NoDup l m :
  NoDup (m.*1) →
  NoDup ((fold_left (λ mapping elem, count_element elem mapping) l m).*1).
Proof.
  revert m. induction l as [|e l IH]; intros m Hm; [done|].
  cbn [fold_left]. apply IH. rewrite count_element_keys.
  destruct (decide (e ∈ m.*1)); [done|].
  apply NoDup_app. split; [done|]. split; [|apply NoDup_singleton].
  intros x Hx ->%list_elem_of_singleton. done.
Qed.

Lemma Counter_NoDup l : NoDup ((Counter l).*1).
Proof. apply counting_loop_NoDup. constructor. Qed.

Lemma get_elem_of (m : counter) w n : NoDup (m.*1) → (w, n) ∈ m → get m w = n.
Proof.
  induction m as [|[k c] m IH]; [by intros _ ?%elem_of_nil|]. csimpl.
  intros [Hk Hm]%NoDup_cons [[= -> ->]|Hin]%elem_of_cons.
  - by rewrite decide_True.
  - rewrite decide_False; [by apply IH|]. intros ->. apply Hk.
    apply list_elem_of_fmap. by exists (w, n).
Qed.

Lemma Counter_elem_occurrences l w n : (w, n) ∈ Counter l → n = occurrences w l.
Proof.
  intros Hin. rewrite <-(get_elem_of _ _ _ (Counter_NoDup l) Hin).
  unfold Counter. rewrite get_counting_loop. simpl. lia.
Qed.

Lemma Counter_key_entry l w : w ∈ l → (w, occurrences w l) ∈ Counter l.
Proof.
  intros Hw. apply Counter_keys, list_elem_of_fmap in Hw as [[w' n] [Heq Hin]].
  simpl in Heq. subst w'. by rewrite <-(Counter_elem_occurrences _ _ _ Hin).
Qed.

Lemma occurrences_meaningful S tokens w :
  (w ∉ S) ∧ (1 < len w) → occurrences w (meaningful S tokens) = occurrences w tokens.
Proof.
  intros Hw. unfold occurrences, meaningful. rewrite list_filter_filter.
  f_equal. apply list_filter_iff. intros x. split; [tauto|]. by intros ->.
Qed.

Lemma Counter_sorted S tokens :
  StronglySorted (count_then (λ a b, first_before tokens a.1 b.1))
    (sorted_by_count_reverse (Counter (meaningful S tokens))).
Proof.
  apply sorted_by_count_reverse_stable, StronglySorted_fst, Counter_first_seen.
Qed.

(** X10: the full mapping holds each distinct word of the counted list
    exactly once, with the number of times it occurs there. *)
Theorem Counter_exact (l : list str) (w : str) (n : Z) :
  ((w, n) ∈ Counter l ↔ w ∈ l ∧ n = occurrences w l)
  ∧ NoDup ((Counter l).*1).
Proof.
  split; [|apply Counter_NoDup]. split.
  - intros Hin. split; [|by apply Counter_elem_occurrences].
    apply Counter_keys, list_elem_of_fmap. by exists (w, n).
  - intros [Hw ->]. by apply Counter_key_entry.
Qed.

(** X11: the count shown for a word is the number of times the word
    occurs in the token sequence, and no word is shown twice. *)
Theorem ranked_count_is_occurrences (stopwords : gset str) (tokens : list str) :
  (∀ w n, (w, n) ∈ ranker stopwords tokens → n = occurrences w tokens)
  ∧ NoDup ((ranker stopwords tokens).*1).
Proof.
  split.
  - intros w n Hr%ranker_subset.
    rewrite (Counter_elem_occurrences _ _ _ Hr).
    apply occurrences_meaningful.
    assert (w ∈ meaningful stopwords tokens) as Hw.
    { apply Counter_keys, list_elem_of_fmap. by exists (w, n). }
    unfold meaningful in Hw. apply list_elem_of_filter in Hw. tauto.
  - unfold ranker, most_common. rewrite fmap_take.
    eapply sublist_NoDup; [|apply sublist_take].
    rewrite sorted_by_count_reverse_perm. apply Counter_NoDup.
Qed.

Lemma ranked_count_is_occurrences_witness : 3 = occurrences apple fruit_tokens.
Proof.
  apply (proj1 (ranked_count_is_occurrences ∅ fruit_tokens) apple 3).
  apply (bool_decide_unpack _). vm_compute. exact I.
Defined.

(** X12: the ranking holds the most frequent words: a token that passes
    the filter and is not in the ranking occurs at most as often as any
    word of the ranking. *)
Theorem ranked_are_most_frequent (stopwords : gset str) (tokens : list str)
    (w w' : str) (n : Z) :
  (w, n) ∈ ranker stopwords tokens →
  w' ∈ tokens → w' ∉ stopwords → 1 < len w' →
  w' ∉ (ranker stopwords tokens).*1 →
  occurrences w' tokens ≤ n.
Proof.
  intros Hr Hin HS Hlen Hout.
  assert (w' ∈ meaningful stopwords tokens) as Hw'.
  { unfold meaningful. apply list_elem_of_filter. tauto. }
  apply Counter_key_entry in Hw'.
  rewrite occurrences_meaningful in Hw' by tauto.
  pose proof (Counter_sorted stopwords tokens) as Hs.
  unfold ranker, most_common in *.
  rewrite <-(take_drop 20 (sorted_by_count_reverse _)) in Hs.
  rewrite <-(sorted_by_count_reverse_perm (Counter _)) in Hw'.
  rewrite <-(take_drop 20 (sorted_by_count_reverse _)) in Hw'.
  apply elem_of_app in Hw' as [Htake|Hdrop].
  - destruct Hout. apply list_elem_of_fmap. by eexists (_, _).
  - destruct (StronglySorted_app_1_elem_of _ _ _ _ _ Hs Hr Hdrop) as [?|[? _]];
      simpl in *; lia.
Qed.

Lemma ranked_are_most_frequent_witness :
  occurrences [0x4E00; 0x4E14] (many_words ++ [[0x4E00; 0x4E03]]) ≤ 2.
Proof.
  apply (ranked_are_most_frequent ∅ (many_words ++ [[0x4E00; 0x4E03]])
           [0x4E00; 0x4E03] [0x4E00; 0x4E14] 2).
  - apply (bool_decide_unpack _). vm_compute. exact I.
  - apply (bool_decide_unpack _). vm_compute. exact I.
  - apply not_elem_of_empty.
  - unfold len. simpl. lia.
  - apply (bool_decide_unpack _). vm_compute. exact I.
Defined.

(** X13: the ranking has as many records as there are distinct words
    that pass the filter, up to 20; when these are at most 20, all of
    them are in it. *)
Theorem ranker_returns_all_when_few (stopwords : gset str) (tokens : list str) :
  length (ranker stopwords tokens)
  = Nat.min 20 (length (Counter (meaningful stopwords tokens)))
  ∧ ((length (Counter (meaningful stopwords tokens)) ≤ 20)%nat →
     ∀ w, w ∈ tokens → w ∉ stopwords → 1 < len w →
          (w, occurrences w tokens) ∈ ranker stopwords tokens).
Proof.
  unfold ranker, most_common. split.
  - by rewrite length_take, sorted_by_count_reverse_perm.
  - intros Hfew w Hin HS Hlen.
    rewrite take_ge by (by rewrite sorted_by_count_reverse_perm).
    rewrite sorted_by_count_reverse_perm.
    rewrite <-(occurrences_meaningful stopwords) by tauto.
    apply Counter_key_entry. unfold meaningful. apply list_elem_of_filter. tauto.
Qed.

Lemma ranker_returns_all_when_few_witness :
  (banana, occurrences banana fruit_tokens) ∈ ranker ∅ fruit_tokens.
Proof.
  apply (proj2 (ranker_returns_all_when_few ∅ fruit_tokens)).
  - vm_compute. lia.
  - apply (bool_decide_unpack _). vm_compute. exact I.
  - apply not_elem_of_empty.
  - unfold len. simpl. lia.
Defined.

Lemma ranker_entry_passes_filter S tokens w n :
  (w, n) ∈ ranker S tokens → (w ∉ S) ∧ (1 < len w).
Proof.
  intros Hr%ranker_subset.
  assert (w ∈ meaningful S tokens) as Hw.
  { apply Counter_keys, list_elem_of_fmap. by exists (w, n). }
  unfold meaningful in Hw. apply list_elem_of_filter in Hw. tauto.
Qed.

(** ** [main], all runs *)

Section pipeline_runs.
Variable validators_url : str → bool.
Variable network : str → exn + response.
Variable decode_utf8 : list Z → option str.
Variable lcut : str → list str.
Variable plot : chart → list (str * Z) → counter → option exn.

(** The result of [main] from the initial state, path by path. *)
Lemma main_run (inp : inputs) :
  main validators_url network decode_utf8 lcut plot inp initial =
  if negb (button inp) then (inr tt, {| log := [st_title]; frame := no_locals |})
  else if negb (validators_url (url inp)) then
    (inr tt, {| log := [st_title; st_error msg_invalid_url]; frame := no_locals |})
  else match stopwords_file inp with
  | None =>
      (inr tt, {| log := [st_title; st_error msg_missing_stopwords]; frame := no_locals |})
  | Some data =>
      match decode_utf8 data with
      | None => (inl UnicodeDecodeError, {| log := [st_title]; frame := no_locals |})
      | Some content =>
          let stopwords : gset str := list_to_set (splitlines content) in
          match network (url inp) with
          | inl e =>
              (inr tt, {| log := [st_title; requests_get (url inp);
                                  st_error (msg_exception e)];
                          frame := no_locals |})
          | inr r =>
              if (400 <=? status_code r) && (status_code r <? 600) then
                (inr tt, {| log := [st_title; requests_get (url inp);
                                    st_error (msg_exception (HTTPError (status_code r)))];
                            frame := no_locals |})
              else
                let ws := lcut (clean (text r)) in
                (inr tt,
                 {| log := shown (url inp) (text r) ws stopwords (chart_type inp)
                             (plot (chart_type inp) (ranker stopwords ws)
                                   (Counter (meaningful stopwords ws)));
                    frame := ranked_locals (text r) ws stopwords |})
          end
      end
  end.
Proof.
  unfold main, try_block, fetch_content, raise_for_status, render, rank_lines.
  cbv [mbind M_bind mret M_ret emit assign try_except raise].
  cbn [log frame initial app].
  destruct (button inp); cbn [negb]; [|done].
  destruct (validators_url (url inp)); cbn [negb]; [|done].
  destruct (stopwords_file inp) as [data|]; [|done].
  destruct (decode_utf8 data) as [content|]; [|done].
  destruct (network (url inp)) as [e|r]; [done|].
  destruct ((400 <=? status_code r) && (status_code r <? 600)); [done|].
  cbv zeta. cbn [fst snd log frame app].
  fold (clean (text r)).
  fold (ranker (list_to_set (splitlines content)) (lcut (clean (text r)))).
  destruct (chart_type inp);
    destruct (plot _ _ _); reflexivity.
Qed.

Ltac main_cases inp :=
  rewrite main_run;
  destruct (button inp) eqn:Hbutton; cbn [negb];
  [ destruct (validators_url (url inp)) eqn:Hvalid; cbn [negb];
    [ destruct (stopwords_file inp) as [fdata|] eqn:Hfile;
      [ destruct (decode_utf8 fdata) as [ftext|] eqn:Hdecode;
        [ cbv zeta; destruct (network (url inp)) as [nerr|nresp] eqn:Hnet;
          [ | destruct ((400 <=? status_code nresp) && (status_code nresp <? 600))
                eqn:Hstatus ]
        | ]
      | ]
    | ]
  | ]; cbn [fst snd log frame].

(** Counting in a log that is a list of constructors. *)
Ltac count_concrete_log :=
  lazymatch goal with
  | |- context [shown] => fail
  | _ => vm_compute; lia
  end.

Lemma shown_requests u page ws S c plotted :
  filter is_request (shown u page ws S c plotted) = [requests_get u].
Proof. destruct c, plotted; reflexivity. Qed.

Lemma shown_error_or_chart u page ws S c plotted :
  (length (filter is_error (shown u page ws S c plotted))
   + length (filter is_chart (shown u page ws S c plotted)) = 1)%nat.
Proof. destruct c, plotted; reflexivity. Qed.

Lemma shown_dataframe u page ws S c plotted df :
  st_dataframe df ∈ shown u page ws S c plotted → df = ranker S ws.
Proof.
  unfold shown. destruct c, plotted; cbn [app]; intros H;
    repeat match type of H with
           | _ ∈ _ :: _ =>
               apply elem_of_cons in H as [H|H]; [first [discriminate H | by injection H]|]
           end;
    by apply elem_of_nil in H.
Qed.

(** X14: when the button is pressed, the URL is accepted, the stop word
    file decodes and the server answers with a status outside 400..599,
    [main] shows the clean text of the page, the caption and the table of
    the ranking, computed from the tokens of the segmenter with the lines
    of the file as stop words; then the chart, or the error of the
    plotting library: the table is on the page in both cases. *)
Theorem main_shows_ranking_of_page (inp : inputs) (data : list Z) (content : str)
    (r : response) :
  button inp = true →
  validators_url (url inp) = true →
  stopwords_file inp = Some data →
  decode_utf8 data = Some content →
  network (url inp) = inr r →
  ¬ (400 ≤ status_code r < 600) →
  let stopwords : gset str := list_to_set (splitlines content) in
  let ws := lcut (clean (text r)) in
  main validators_url network decode_utf8 lcut plot inp initial
  = (inr tt,
     {| log := shown (url inp) (text r) ws stopwords (chart_type inp)
                 (plot (chart_type inp) (ranker stopwords ws)
                       (Counter (meaningful stopwords ws)));
        frame := ranked_locals (text r) ws stopwords |}).
Proof.
  intros Hb Hv Hf Hd Hn Hs. rewrite main_run, Hb, Hv, Hf, Hd, Hn. cbn [negb].
  replace ((400 <=? status_code r) && (status_code r <? 600)) with false by lia.
  reflexivity.
Qed.

(** X15: the only exception that leaves [main] is the decoding error of
    the stop word file, raised ahead of the [try] block; whatever the
    network and the plotting libraries raise is caught. *)
Theorem main_only_decode_error_escapes (inp : inputs) (e : exn) (s' : state) :
  main validators_url network decode_utf8 lcut plot inp initial = (inl e, s') →
  e = UnicodeDecodeError
  ∧ (∃ data, stopwords_file inp = Some data ∧ decode_utf8 data = None)
  ∧ s' = {| log := [st_title]; frame := no_locals |}.
Proof.
  main_cases inp; intros [= <- <-] || intros [=]. eauto.
Qed.

(** X16: [main] calls [requests.get] at most once, and only with the URL
    of the side bar as its argument, after the button was pressed, the
    validator accepted the URL and the stop word file was read.  (How
    many requests the library sends for one call, when it follows
    redirects, is not part of the statement.) *)
Theorem main_requests_only_validated_url (inp : inputs) :
  let l := log (main validators_url network decode_utf8 lcut plot inp initial).2 in
  (length (filter is_request l) ≤ 1)%nat
  ∧ ∀ u, requests_get u ∈ l →
      u = url inp ∧ button inp = true ∧ validators_url (url inp) = true
      ∧ ∃ data content, stopwords_file inp = Some data
                        ∧ decode_utf8 data = Some content.
Proof.
  cbv zeta. main_cases inp.
  all: split; [try count_concrete_log|].
  all: try (intros u Hu;
            repeat match type of Hu with
                   | _ ∈ _ :: _ =>
                       apply elem_of_cons in Hu as [Hu|Hu];
                       [first [discriminate Hu | injection Hu as ->; by eauto 10]|]
                   end;
            by apply elem_of_nil in Hu).
  - by rewrite shown_requests.
  - intros u Hu.
    assert (requests_get u ∈ [requests_get (url inp)]) as Hin.
    { erewrite <-shown_requests. apply list_elem_of_filter. split; [done|exact Hu]. }
    apply list_elem_of_singleton in Hin as [= ->]. eauto 10.
Qed.

(** X17: a run of [main] shows at most one error message or chart, never
    both and never two of a kind. *)
Theorem main_one_error_or_chart (inp : inputs) :
  let l := log (main validators_url network decode_utf8 lcut plot inp initial).2 in
  (length (filter is_error l) + length (filter is_chart l) ≤ 1)%nat.
Proof.
  cbv zeta. main_cases inp; try count_concrete_log.
  by rewrite shown_error_or_chart.
Qed.

(** X18: every word of a table that [main] displays is longer than one
    character and is no line of the stop word file, and the table has at
    most 20 rows. *)
Theorem displayed_table_excludes_stop_words (inp : inputs) (df : list (str * Z))
    (w : str) (n : Z) :
  st_dataframe df ∈ log (main validators_url network decode_utf8 lcut plot inp initial).2 →
  (w, n) ∈ df →
  (length df ≤ 20)%nat ∧ 1 < len w
  ∧ ∃ data content, stopwords_file inp = Some data
                    ∧ decode_utf8 data = Some content
                    ∧ w ∉ splitlines content.
Proof.
  main_cases inp; intros Hdf Hw.
  all: try (repeat match type of Hdf with
                   | _ ∈ _ :: _ =>
                       apply elem_of_cons in Hdf as [Hdf|Hdf]; [discriminate Hdf|]
                   end;
            by apply elem_of_nil in Hdf).
  apply shown_dataframe in Hdf. subst df.
  split; [unfold ranker, most_common; rewrite length_take; lia|].
  apply ranker_entry_passes_filter in Hw as [HS Hlen]. split; [done|].
  exists fdata, ftext. split; [done|]. split; [done|].
  by rewrite elem_of_list_to_set in HS.
Qed.

End pipeline_runs.

(** *** Concrete runs, further *)

Lemma main_shows_ranking_of_page_witness :
  main (λ _, true) (answering 200) (λ _, Some banana) (λ t, [t]) (λ _ _ _, None)
       (pressed (Some []) Cloud) initial
  = (inr tt,
     {| log := [st_title; requests_get [0x61]; st_expander_write apple; st_write_top20;
                st_dataframe [(apple, 1)]; st_write_cloud; st_pyplot Cloud];
        frame := ranked_locals apple [apple] {[ banana ]} |}).
Proof.
  etrans.
  - apply (main_shows_ranking_of_page (λ _, true) (answering 200) (λ _, Some banana)
             (λ t, [t]) (λ _ _ _, None) (pressed (Some []) Cloud) [] banana
             {| status_code := 200; text := apple |});
      try reflexivity.
    simpl. lia.
  - reflexivity.
Defined.

Lemma main_only_decode_error_escapes_witness :
  UnicodeDecodeError = UnicodeDecodeError
  ∧ (∃ data, stopwords_file (pressed (Some [0xFF]) Bar) = Some data
             ∧ (λ _ : list Z, @None str) data = None)
  ∧ {| log := [st_title]; frame := no_locals |}
    = {| log := [st_title]; frame := no_locals |}.
Proof.
  apply (main_only_decode_error_escapes (λ _, true) (answering 200) (λ _, None)
           (λ t, [t]) (λ _ _ _, None) (pressed (Some [0xFF]) Bar)).
  reflexivity.
Defined.

Lemma main_requests_only_validated_url_witness :
  [0x61] = url (pressed (Some []) Bar).
Proof.
  refine (proj1 (proj2 (main_requests_only_validated_url (λ _, true) (answering 404)
                          (λ _, Some []) (λ t, [t]) (λ _ _ _, None)
                          (pressed (Some []) Bar)) [0x61] _)).
  vm_compute. apply list_elem_of_further, list_elem_of_here.
Defined.

Lemma displayed_table_excludes_stop_words_witness :
  (length [(apple, 1)] ≤ 20)%nat ∧ 1 < len apple
  ∧ ∃ data content, stopwords_file (pressed (Some []) Bar) = Some data
                    ∧ (λ _ : list Z, Some (banana ++ [0x0A])) data = Some content
                    ∧ apple ∉ splitlines content.
Proof.
  apply (displayed_table_excludes_stop_words (λ _, true) (answering 200)
           (λ _, Some (banana ++ [0x0A])) (λ t, [t]) (λ _ _ _, None)
           (pressed (Some []) Bar) [(apple, 1)] apple 1).
  - vm_compute. do 4 apply list_elem_of_further. apply list_elem_of_here.
  - apply list_elem_of_here.
Defined.

(** ** [fetch_content], further *)

(** X19: [fetch_content] calls [requests.get] once, with the URL it is
    given, and assigns no local, whatever the outcome; it returns a page
    exactly when the call returns a response (the last one, when the
    library followed redirects) whose status is outside 400..599, and the
    page is then the text of that response. *)
Theorem fetch_content_returns_body (network : str → exn + response) (u : str)
    (s : state) :
  (fetch_content network u s).2
  = {| log := log s ++ [requests_get u]; frame := frame s |}
  ∧ ∀ page, (fetch_content network u s).1 = inr page
            ↔ ∃ r, network u = inr r ∧ ¬ (400 ≤ status_code r < 600) ∧ page = text r.
Proof.
  unfold fetch_content, raise_for_status.
  cbv [mbind M_bind mret M_ret emit raise].
  destruct (network u) as [e|r]; cbn [fst snd].
  - split; [done|]. intros page. split; [done|]. by intros (r & [=] & _).
  - destruct ((400 <=? status_code r) && (status_code r <? 600)) eqn:Hs; cbn [fst snd].
    + split; [done|]. intros page. split; [done|]. intros (r' & [= <-] & Hr & _). lia.
    + split; [done|]. intros page. split.
      * intros [= <-]. exists r. split; [done|]. split; [lia|done].
      * by intros (r' & [= <-] & _ & ->).
Qed.

(** ** The stop word file *)




